(** * pycircstat2: circular distributions (src/pycircstat2/distribution.py)

    A shallow embedding of the per-distribution [_argcheck], [_pdf] and
    [_cdf] methods and of the module-level helper functions.

    Conventions of the embedding.
    - Floating-point numbers are read as real numbers ([R]); [np.cos],
      [np.sin], [np.exp], [np.cosh], [np.sinh] and [np.pi] are the
      functions and the constant of the Standard Library.
    - One-dimensional arrays are lists of reals.
    - The numerical primitives imported from scipy ([i0], [i1], [gamma],
      [quad], [quad_vec], [root]) are an interface, class [Scipy]; the
      development holds for every implementation of it. *)

From Stdlib Require Import Reals Lra Lia List Bool.
Import ListNotations.
Open Scope R_scope.

(** ** Python values and numpy helpers *)

(** What a method can hand back: a float, an array, or a 2-tuple. *)
Inductive pyobj : Type :=
| PyFloat (v : R)
| PyArray (a : list R)
| PyTuple (fst_item snd_item : pyobj).

(** Chained comparisons [a <= b], [a < b] as booleans. *)
Definition Rleb (a b : R) : bool := if Rle_dec a b then true else false.
Definition Rltb (a b : R) : bool := if Rlt_dec a b then true else false.

(** [np.isclose(a, b)] with its default tolerances. *)
Definition rtol : R := 1e-5.
Definition atol : R := 1e-8.
Definition isclose (a b : R) : bool :=
  Rleb (Rabs (a - b)) (atol + rtol * Rabs b).

(** [range(a, b)]. *)
Definition range (a b : nat) : list nat := seq a (b - a).

(** [np.sum(l, 0)] of a list of scalars. *)
Definition np_sum (l : list R) : R := fold_left Rplus l 0.

(** [np.zeros_like(x)]. *)
Definition zeros_like (x : list R) : list R := map (fun _ => 0) x.

(** Float power [b ** e] for a base [b >= 0]: [0 ** e] is [0] for a
    positive exponent and [1] for a zero exponent. *)
Definition np_power (b e : R) : R :=
  if Req_dec_T b 0 then (if Req_dec_T e 0 then 1 else 0) else Rpower b e.

(** Element-wise binary operation on two arrays of the same shape. *)
Fixpoint zip_with (f : R -> R -> R) (a b : list R) : list R :=
  match a, b with
  | u :: a', v :: b' => f u v :: zip_with f a' b'
  | _, _ => []
  end.

(** ** The scipy interface *)

(** [scipy.optimize.OptimizeResult]: the solution array and the flag
    telling whether the solver exited successfully. *)
Record OptimizeResult : Type := mkResult {
  res_x : list R;
  success : bool
}.

Class Scipy : Type := {
  (** modified Bessel functions of order 0 and 1, and Gamma *)
  i0 : R -> R;
  i1 : R -> R;
  gamma : R -> R;
  (** [quad(f, a, b)] returns the tuple (integral, error estimate) *)
  quad : (R -> R) -> R -> R -> R * R;
  (** [quad_vec(f, a, b)] returns (integral, error estimate, ...) *)
  quad_vec : (R -> R) -> R -> R -> R * R;
  (** [root(fun, x0)] *)
  root : (list R -> list R) -> list R -> OptimizeResult
}.

(** [np.vectorize(f)(x)] for an [f] returning a 2-tuple: one output
    array per tuple position. *)
Definition np_vectorize (f : R -> R * R) (x : list R) : pyobj :=
  PyTuple (PyArray (map (fun xi => fst (f xi)) x))
          (PyArray (map (fun xi => snd (f xi)) x)).

(** ** Symmetric distributions *)

Module circularuniform_gen.

Definition _pdf (x : R) : R := 1 / PI.

Definition _cdf (x : R) : R := x / (2 * PI).

End circularuniform_gen.

Module cardioid_gen.

Definition _argcheck (rho mu : R) : bool :=
  (Rleb 0 rho && Rleb rho 0.5) && (Rleb 0 mu && Rleb mu (PI * 2)).

Definition _pdf (x rho mu : R) : R :=
  (1 + 2 * rho * cos (x - mu)) / 2 / PI.

Definition _cdf (x rho mu : R) : R :=
  (x + 2 * rho * (sin (x - mu) + sin mu)) / (2 * PI).

End cardioid_gen.

Module cartwright_gen.
Section Methods.
Context `{Scipy}.

Definition _argcheck (zeta mu : R) : bool :=
  Rltb 0 zeta && (Rleb 0 mu && Rleb mu (2 * PI)).

Definition _pdf (x zeta mu : R) : R :=
  (np_power 2 (-1 + 1 / zeta) * (gamma (1 + 1 / zeta)) ^ 2)
  * np_power (1 + cos (x - mu)) (1 / zeta)
  / (PI * gamma (1 + 2 / zeta)).

Definition _cdf (x : list R) (zeta mu : R) : pyobj :=
  let _cdf_single x := quad (fun t => _pdf t zeta mu) 0 x in
  np_vectorize _cdf_single x.

End Methods.
End cartwright_gen.

Module wrapnorm_gen.
Section Methods.
Context `{Scipy}.

Definition _argcheck (rho mu : R) : bool :=
  (Rltb 0 rho && Rleb rho 1) && (Rleb 0 mu && Rleb mu (PI * 2)).

Definition _pdf (x rho mu : R) : R :=
  (1 + 2 * np_sum (map (fun p : nat =>
                          rho ^ (p * p) * cos (INR p * (x - mu)))
                       (range 1 30)))
  / (2 * PI).

Definition _cdf (x : list R) (rho mu : R) : pyobj :=
  let _cdf_single x := quad (fun t => _pdf t rho mu) 0 x in
  np_vectorize _cdf_single x.

End Methods.
End wrapnorm_gen.

Module wrapcauchy_gen.
Section Methods.
Context `{Scipy}.

Definition _argcheck (rho mu : R) : bool :=
  (Rltb 0 rho && Rleb rho 1) && (Rleb 0 mu && Rleb mu (PI * 2)).

Definition _pdf (x rho mu : R) : R :=
  (1 - rho ^ 2) / (2 * PI * (1 + rho ^ 2 - 2 * rho * cos (x - mu))).

Definition _cdf (x : list R) (rho mu : R) : pyobj :=
  let _cdf_single x := quad (fun t => _pdf t rho mu) 0 x in
  np_vectorize _cdf_single x.

End Methods.
End wrapcauchy_gen.

Module vonmises.
Section Methods.
Context `{Scipy}.

Definition _argcheck (kappa mu : R) : bool :=
  Rltb 0 kappa && (Rleb 0 mu && Rleb mu (PI * 2)).

Definition _pdf (x kappa mu : R) : R :=
  exp (kappa * cos (x - mu)) / (2 * PI * i0 kappa).

Definition _cdf (x : list R) (kappa mu : R) : pyobj :=
  let _cdf_single x := quad (fun t => _pdf t kappa mu) 0 x in
  np_vectorize _cdf_single x.

End Methods.
End vonmises.

(** ** Jones-Pewsey family *)

Section JonesPewseyHelpers.
Context `{Scipy}.

Definition _kernel_jonespewsey (x kappa psi mu : R) : R :=
  np_power (cosh (kappa * psi) + sinh (kappa * psi) * cos (x - mu))
           (1 / psi)
  / (2 * PI * cosh (kappa * PI)).

Definition _c_jonespewsey (kappa psi mu : R) : R :=
  fst (quad_vec (fun x => _kernel_jonespewsey x kappa psi mu) (- PI) PI).

End JonesPewseyHelpers.

Module jonespewsey_gen.
Section Methods.
Context `{Scipy}.

(** [-np.inf <= psi <= np.inf] holds for every real [psi]. *)
Definition _argcheck (kappa psi mu : R) : bool :=
  Rleb 0 kappa && true && (Rleb 0 mu && Rleb mu (PI * 2)).

Definition _pdf (x kappa psi mu : R) : R :=
  if Rltb kappa 0.001 then 1 / (2 * PI)
  else if isclose (Rabs psi) 0 then
    1 / (2 * PI * i0 kappa) * exp (kappa * cos (x - mu))
  else
    let c := _c_jonespewsey kappa psi mu in
    _kernel_jonespewsey x kappa psi mu / c.

Definition _cdf (x : list R) (kappa psi mu : R) : pyobj :=
  let vonmises_pdf x kappa psi mu c := c * exp (kappa * cos (x - mu)) in
  if isclose (Rabs psi) 0 then
    let c := _c_jonespewsey kappa psi mu in
    let _cdf_single x := quad (fun t => vonmises_pdf t kappa psi mu c) 0 x in
    np_vectorize _cdf_single x
  else
    let _cdf_single x := quad (fun t => _pdf t kappa psi mu) 0 x in
    np_vectorize _cdf_single x.

End Methods.
End jonespewsey_gen.

(** ** Flat-topped (extended) von Mises *)

Section VonMisesExtHelpers.
Context `{Scipy}.

Definition _kernel_vmext (x kappa nu mu : R) : R :=
  exp (kappa * cos (x - mu + nu * sin (x - mu))).

Definition _c_vmext (kappa nu mu : R) : R :=
  1 / fst (quad_vec (fun x => _kernel_vmext x kappa nu mu) (- PI) PI).

End VonMisesExtHelpers.

Module vonmises_ext_gen.
Section Methods.
Context `{Scipy}.

Definition _argcheck (kappa nu mu : R) : bool :=
  Rleb 0 kappa && (Rleb (-1) nu && Rleb nu 1)
  && (Rleb 0 mu && Rleb mu (PI * 2)).

Definition _pdf (x kappa nu mu : R) : R :=
  let c := _c_vmext kappa nu mu in
  c * _kernel_vmext x kappa nu mu.

Definition _cdf (x : list R) (kappa nu mu : R) : pyobj :=
  let _cdf_single x := quad (fun t => _pdf t kappa nu mu) 0 x in
  np_vectorize _cdf_single x.

End Methods.
End vonmises_ext_gen.

(** ** Sine-skewed and asymmetric extensions *)

Module jonespewsey_sineskewed_gen.
Section Methods.
Context `{Scipy}.

Definition _argcheck (kappa psi lmda : R) : bool :=
  Rleb 0 kappa && true && (Rleb (-1) lmda && Rleb lmda 1).

Definition _pdf (x kappa psi lmda : R) : R :=
  if Rltb kappa 0.001 then 1 / (2 * PI) * (1 + lmda * sin x)
  else if isclose (Rabs psi) 0 then
    1 / (2 * PI * i0 kappa) * exp (kappa * cos x) * (1 + lmda * sin x)
  else
    let kernel x :=
      np_power (cosh (kappa * psi) + sinh (kappa * psi) * cos x) (1 / psi)
      / (2 * PI * cosh (kappa * PI)) in
    let c := fst (quad_vec kernel (- PI) PI) in
    (1 + lmda * sin x) * kernel x / c.

End Methods.
End jonespewsey_sineskewed_gen.

Module jonespewsey_asymext_gen.
Section Methods.
Context `{Scipy}.

Definition _argcheck (kappa psi nu : R) : bool :=
  Rleb 0 kappa && true && (Rleb 0 nu && Rltb nu 1).

Definition _pdf (x kappa psi nu : R) : R :=
  if isclose (Rabs psi) 0 then
    let kernel x := exp (kappa * cos (x + nu * cos x)) in
    let c := fst (quad_vec kernel (- PI) PI) in
    kernel x / c
  else
    let kernel x :=
      np_power (cosh (kappa * psi)
                + sinh (kappa * psi) * cos (x + nu * cos x)) (1 / psi) in
    let c := fst (quad_vec kernel (- PI) PI) in
    kernel x / c.

End Methods.
End jonespewsey_asymext_gen.

(** ** Inverse Batschelet *)

Section InverseBatscheletHelpers.
Context `{Scipy}.

(** The residual handed to the solver, [z - nu * (1 + cos z) - x]. *)
Definition _tnuinv (x : list R) (nu : R) (z : list R) : list R :=
  zip_with (fun zi xi => zi - nu * (1 + cos zi) - xi) z x.

Definition _tnu (x : list R) (nu : R) : list R :=
  let y := res_x (root (_tnuinv x nu) (zeros_like x)) in
  map (fun yi => if Rltb PI yi then yi - 2 * PI else yi) y.

(** The residual [z - 0.5 * (1 + lmbd) * sin z - x]. *)
Definition _slmbd (x : list R) (lmbd : R) (z : list R) : list R :=
  zip_with (fun zi xi => zi - 0.5 * (1 + lmbd) * sin zi - xi) z x.

Definition _slmbdinv (x : list R) (lmbd : R) : list R :=
  if isclose lmbd (-1) then x
  else res_x (root (_slmbd x lmbd) (zeros_like x)).

Definition _A1 (kappa : R) : R := i1 kappa / i0 kappa.

Definition _c_invbatschelet (kappa lmbd : R) : R :=
  let mult := 2 * PI * i0 kappa in
  if isclose lmbd 1 then
    let K := 1 - _A1 kappa in
    1 / (mult * K)
  else
    let con1 := (1 + lmbd) / (1 - lmbd) in
    let con2 := (2 * lmbd) / ((1 - lmbd) * mult) in
    let kernel x := exp (kappa * cos (x - (1 - lmbd) * sin x / 2)) in
    let intval := fst (quad_vec kernel (- PI) PI) in
    1 / (mult * (con1 - con2 * intval)).

End InverseBatscheletHelpers.

Module inverse_batschelet_gen.
Section Methods.
Context `{Scipy}.

Definition _argcheck (kappa nu lmbd : R) : bool :=
  Rleb 0 kappa && (Rleb (-1) nu && Rleb nu 1)
  && (Rleb (-1) lmbd && Rleb lmbd 1).

Definition _pdf (x : list R) (kappa nu lmbd : R) : list R :=
  let arg1 := _tnu x nu in
  let arg2 := _slmbdinv arg1 lmbd in
  let c := _c_invbatschelet kappa lmbd in
  if isclose lmbd (-1) then
    map (fun a1 => c * exp (kappa * cos (a1 - sin a1))) arg1
  else
    let con1 := (1 - lmbd) / (1 + lmbd) in
    let con2 := (2 * lmbd) / (1 + lmbd) in
    zip_with (fun a1 a2 => c * exp (kappa * cos (con1 * a1 + con2 * a2)))
             arg1 arg2.

End Methods.
End inverse_batschelet_gen.

(** ** Reference formulas, as the specification words them *)

Module Spec.
Section Formulas.
Context `{Scipy}.

(** Circular uniform density. *)
Definition uniform_density (x : R) : R := 1 / (2 * PI).

(** Cardioid density. *)
Definition cardioid_density (x rho mu : R) : R :=
  (1 + 2 * rho * cos (x - mu)) / (2 * PI).

(** Wrapped normal series truncated at 29 wrapping terms. *)
Definition wrapnorm_density (x rho mu : R) : R :=
  (1 + 2 * sum_f 1 29 (fun p => rho ^ (p * p) * cos (INR p * (x - mu))))
  / (2 * PI).

(** The regime of the Jones-Pewsey density, selected once per call. *)
Inductive regime : Type := GENERAL | SYMMETRIC_LIMIT | UNIFORM_LIMIT.

Definition jonespewsey_regime (kappa psi : R) : regime :=
  if Rlt_dec kappa 0.001 then UNIFORM_LIMIT
  else if isclose (Rabs psi) 0 then SYMMETRIC_LIMIT
  else GENERAL.

Definition jonespewsey_kernel (x kappa psi mu : R) : R :=
  Rpower (cosh (kappa * psi) + sinh (kappa * psi) * cos (x - mu)) (1 / psi).

Definition jonespewsey_density (x kappa psi mu : R) : R :=
  match jonespewsey_regime kappa psi with
  | UNIFORM_LIMIT => 1 / (2 * PI)
  | SYMMETRIC_LIMIT => exp (kappa * cos (x - mu)) / (2 * PI * i0 kappa)
  | GENERAL =>
      jonespewsey_kernel x kappa psi mu
      / fst (quad_vec (fun t => jonespewsey_kernel t kappa psi mu) (- PI) PI)
  end.



(** Inverse Batschelet normalizing constant. *)
Definition invbatschelet_integral (kappa lmbd : R) : R :=
  fst (quad_vec (fun x => exp (kappa * cos (x - (1 - lmbd) * sin x / 2)))
                (- PI) PI).

Definition invbatschelet_constant (kappa lmbd : R) : R :=
  if isclose lmbd 1 then
    1 / (2 * PI * i0 kappa * (1 - i1 kappa / i0 kappa))
  else
    1 / (2 * PI * i0 kappa
         * ((1 + lmbd) / (1 - lmbd)
            - (2 * lmbd / ((1 - lmbd) * 2 * PI * i0 kappa))
              * invbatschelet_integral kappa lmbd)).

End Formulas.
End Spec.

(** The arrays of integrals and of error estimates that [quad] yields
    for the upper limits [x], the lower limit being 0. *)
Definition integrals `{Scipy} (f : R -> R) (x : list R) : list R :=
  map (fun b => fst (quad f 0 b)) x.

Definition abserrs `{Scipy} (f : R -> R) (x : list R) : list R :=
  map (fun b => snd (quad f 0 b)) x.

(** A quadrature rule is homogeneous when a constant divisor of the
    integrand can be taken out of the integral. *)
Definition homogeneous_quad_vec `{Scipy} : Prop :=
  forall (f : R -> R) (k a b : R),
    fst (quad_vec (fun x => f x / k) a b) = fst (quad_vec f a b) / k.

(** ** A small concrete implementation of the interface

    One-point midpoint quadrature and a single unit-slope Newton step;
    Bessel and Gamma values are fixed at 1.  It is used to run the
    definitions on concrete inputs. *)

Definition midpoint (f : R -> R) (a b : R) : R * R :=
  ((b - a) * f ((a + b) / 2), 0).

Definition newton_step (f : list R -> list R) (x0 : list R) : OptimizeResult :=
  mkResult (zip_with Rminus x0 (f x0)) true.

#[local] Instance toy_scipy : Scipy := {
  i0 := fun _ => 1;
  i1 := fun _ => 1;
  gamma := fun _ => 1;
  quad := midpoint;
  quad_vec := midpoint;
  root := newton_step
}.

(** ** Solver diagnostics

    The transforms solved by the inverse Batschelet helpers, as functions
    of the unknown, and what it means for a call of [root] to have
    converged: the solution has one entry per initial guess and the
    residual vanishes at it. *)

Definition T_nu (nu z : R) : R := z - nu * (1 + cos z).


Definition converged `{Scipy} (f : list R -> list R) (x0 : list R) : Prop :=
  let z := res_x (root f x0) in
  length z = length x0 /\ Forall (fun r => r = 0) (f z).

Definition tnu_converged `{Scipy} (x : list R) (nu : R) : Prop :=
  converged (_tnuinv x nu) (zeros_like x).

Definition slmbd_converged `{Scipy} (x : list R) (lmbd : R) : Prop :=
  converged (_slmbd x lmbd) (zeros_like x).

(** The canonicalisation step of [_tnu], [y[y > np.pi] -= 2 * np.pi],
    on one element. *)
Definition wrap_pi (y : R) : R := if Rltb PI y then y - 2 * PI else y.
Arguments wrap_pi y : simpl never.



(** The same numerical library with another root-finder. *)
Definition with_root (S : Scipy)
    (r : (list R -> list R) -> list R -> OptimizeResult) : Scipy :=
  {| i0 := @i0 S; i1 := @i1 S; gamma := @gamma S;
     quad := @quad S; quad_vec := @quad_vec S; root := r |}.



(** A root-finder that makes no progress: it hands back its initial
    guess and reports failure. *)
Definition stalled_root (f : list R -> list R) (x0 : list R) : OptimizeResult :=
  mkResult x0 false.


(** A root-finder that takes the unit-slope Newton step but reports
    failure. *)
Definition unflagged_newton_step (f : list R -> list R) (x0 : list R)
  : OptimizeResult :=
  mkResult (zip_with Rminus x0 (f x0)) false.

(** * Properties *)

(** ** Auxiliary facts *)

Lemma PI_bounds : 3.141 < PI < 3.142.
Proof.
  pose proof (PI_2_3_7_ineq 2) as [Hlo Hhi].
  unfold sum_f_R0, tg_alt, PI_2_3_7_tg, Ratan_seq in Hlo, Hhi.
  simpl in Hlo, Hhi.
  split; lra.
Qed.

Lemma Rleb_true_iff (a b : R) : Rleb a b = true <-> a <= b.
Proof. unfold Rleb; destruct (Rle_dec a b); split; intros; try easy. Qed.

Lemma Rleb_false_iff (a b : R) : Rleb a b = false <-> b < a.
Proof.
  unfold Rleb; destruct (Rle_dec a b); split; intros; try easy; lra.
Qed.

Lemma Rltb_true_iff (a b : R) : Rltb a b = true <-> a < b.
Proof. unfold Rltb; destruct (Rlt_dec a b); split; intros; try easy. Qed.

Lemma Rltb_false_iff (a b : R) : Rltb a b = false <-> b <= a.
Proof.
  unfold Rltb; destruct (Rlt_dec a b); split; intros; try easy; lra.
Qed.

Lemma cos_shift (x : R) : cos (x + 2 * PI) = cos x.
Proof. rewrite cos_plus, cos_2PI, sin_2PI; ring. Qed.

Lemma sin_shift (x : R) : sin (x + 2 * PI) = sin x.
Proof. rewrite sin_plus, cos_2PI, sin_2PI; ring. Qed.

Lemma fold_left_Rplus_acc (l : list R) (a : R) :
  fold_left Rplus l a = a + fold_left Rplus l 0.
Proof.
  revert a; induction l as [|v l IH]; intros a; simpl.
  - ring.
  - rewrite (IH (a + v)), (IH (0 + v)); ring.
Qed.

Lemma np_sum_seq (f : nat -> R) (s n : nat) :
  np_sum (map f (seq s (S n))) = sum_f_R0 (fun k => f (k + s)%nat) n.
Proof.
  unfold np_sum; induction n as [|n IH].
  - simpl; ring.
  - rewrite seq_S, map_app, fold_left_app, IH; simpl.
    replace (s + S n)%nat with (S (n + s))%nat by lia; reflexivity.
Qed.

(** ** Circular uniform *)

(** C2 (the code departs from the claim): the density method returns
    [1/pi] at every angle, twice the value [1/(2 pi)] of the claim; over
    [[0, 2 pi]] it integrates to 2, and it is not the derivative
    [1/(2 pi)] of the cumulative function [x/(2 pi)]. *)
Theorem circularuniform_pdf_is_twice_uniform :
  forall x : R,
    circularuniform_gen._pdf x = 1 / PI
    /\ circularuniform_gen._pdf x = 2 * Spec.uniform_density x
    /\ circularuniform_gen._pdf x <> Spec.uniform_density x
    /\ RiemannInt (RiemannInt_P14 0 (2 * PI) (1 / PI)) = 2
    /\ derivable_pt_lim circularuniform_gen._cdf x (Spec.uniform_density x).
Proof.
  intros x; pose proof PI_bounds as HPI.
  unfold circularuniform_gen._pdf, Spec.uniform_density.
  assert (Hpi : PI <> 0) by lra.
  repeat split.
  - field; exact Hpi.
  - intros E.
    assert (E' : 1 / PI * (2 * PI) = 1 / (2 * PI) * (2 * PI)) by (rewrite <- E; reflexivity).
    field_simplify in E'; lra.
  - rewrite RiemannInt_P15; field; exact Hpi.
  - unfold circularuniform_gen._cdf.
    replace (1 / (2 * PI)) with (1 * / (2 * PI)) by (field; exact Hpi).
    apply (derivable_pt_lim_scal_right id x 1 (/ (2 * PI))).
    apply derivable_pt_lim_id.
Qed.

(** ** Cardioid *)

(** C8: with rho = 0.3 and mu = 0 the cardioid density is
    [(1 + 0.6)/(2 pi)], about 0.2546, at 0 and [(1 - 0.6)/(2 pi)], about
    0.0637, at pi; in general it is [(1 + 2 rho cos (x - mu))/(2 pi)]. *)
Theorem cardioid_pdf_formula :
  cardioid_gen._pdf 0 0.3 0 = (1 + 0.6) / (2 * PI)
  /\ Rabs (cardioid_gen._pdf 0 0.3 0 - 0.2546) < 0.0001
  /\ cardioid_gen._pdf PI 0.3 0 = (1 - 0.6) / (2 * PI)
  /\ Rabs (cardioid_gen._pdf PI 0.3 0 - 0.0637) < 0.0001
  /\ forall x rho mu : R,
       cardioid_gen._pdf x rho mu = Spec.cardioid_density x rho mu.
Proof.
  pose proof PI_bounds as HPI.
  assert (Hpi : PI <> 0) by lra.
  assert (E0 : cardioid_gen._pdf 0 0.3 0 = 0.8 / PI).
  { unfold cardioid_gen._pdf. rewrite Rminus_0_r, cos_0. unfold Rdiv; lra. }
  assert (E1 : cardioid_gen._pdf PI 0.3 0 = 0.2 / PI).
  { unfold cardioid_gen._pdf. rewrite Rminus_0_r, cos_PI. unfold Rdiv; lra. }
  assert (Hinv : / 3.142 < / PI < / 3.141).
  { split; apply Rinv_lt_contravar; nra. }
  repeat split.
  - rewrite E0; unfold Rdiv; rewrite Rinv_mult; lra.
  - rewrite E0; unfold Rdiv; apply Rabs_def1; lra.
  - rewrite E1; unfold Rdiv; rewrite Rinv_mult; lra.
  - rewrite E1; unfold Rdiv; apply Rabs_def1; lra.
  - intros x rho mu; unfold cardioid_gen._pdf, Spec.cardioid_density.
    field; exact Hpi.
Qed.

(** C9: every distribution with a location parameter rejects a [mu]
    outside [[0, 2 pi]], whatever the other shape parameters are; the
    validators do not look at the angle [x] at all. *)
Theorem argcheck_rejects_mu_outside_period :
  forall rho zeta kappa psi nu mu : R,
    mu < 0 \/ 2 * PI < mu ->
    cardioid_gen._argcheck rho mu = false
    /\ cartwright_gen._argcheck zeta mu = false
    /\ wrapnorm_gen._argcheck rho mu = false
    /\ wrapcauchy_gen._argcheck rho mu = false
    /\ vonmises._argcheck kappa mu = false
    /\ jonespewsey_gen._argcheck kappa psi mu = false
    /\ vonmises_ext_gen._argcheck kappa nu mu = false.
Proof.
  intros rho zeta kappa psi nu mu Hout.
  assert (G1 : Rleb 0 mu && Rleb mu (PI * 2) = false).
  { destruct Hout as [Hlo | Hhi].
    - replace (Rleb 0 mu) with false; [reflexivity |].
      symmetry; apply Rleb_false_iff; exact Hlo.
    - replace (Rleb mu (PI * 2)) with false; [apply andb_false_r |].
      symmetry; apply Rleb_false_iff; lra. }
  assert (G2 : Rleb 0 mu && Rleb mu (2 * PI) = false).
  { replace (2 * PI) with (PI * 2) by ring; exact G1. }
  unfold cardioid_gen._argcheck, cartwright_gen._argcheck,
    wrapnorm_gen._argcheck, wrapcauchy_gen._argcheck, vonmises._argcheck,
    jonespewsey_gen._argcheck, vonmises_ext_gen._argcheck.
  rewrite G1, G2; repeat split; apply andb_false_r.
Qed.

Lemma argcheck_rejects_mu_outside_period_witness :
  (-1 < 0 \/ 2 * PI < -1)
  /\ cardioid_gen._argcheck 0.3 (-1) = false
  /\ vonmises._argcheck 2 (-1) = false.
Proof.
  assert (Hout : -1 < 0 \/ 2 * PI < -1) by (left; lra).
  split; [exact Hout |].
  destruct (argcheck_rejects_mu_outside_period 0.3 1 2 0 0 (-1) Hout)
    as (Hc & _ & _ & _ & Hv & _).
  split; [exact Hc | exact Hv].
Defined.

(** ** Wrapped normal *)

(** C10: the wrapped normal density is the series truncated at exactly
    29 wrapping terms, p = 1, ..., 29. *)
Theorem wrapnorm_pdf_is_truncated_series :
  forall x rho mu : R,
    wrapnorm_gen._pdf x rho mu = Spec.wrapnorm_density x rho mu.
Proof.
  intros x rho mu; unfold wrapnorm_gen._pdf, Spec.wrapnorm_density.
  change (range 1 30) with (seq 1 (S 28)).
  rewrite np_sum_seq; unfold sum_f.
  change (29 - 1)%nat with 28%nat; reflexivity.
Qed.

(** ** Cumulative functions *)

(** C1 (the code departs from the claim): each numerically integrated
    cumulative method hands back what the vectorised [quad] returns, a
    2-tuple made of the array of integrals and the array of error
    estimates; it is never the float or the array of integrals alone.
    For Jones-Pewsey with [|psi|] close to 0 the integrand is moreover
    [c * exp (kappa * cos (x - mu))] with [c] the integral of the
    kernel, not the density. *)
Theorem cdf_returns_integral_and_error_arrays :
  forall `{Scipy} (x : list R) (zeta rho kappa psi nu mu : R),
    let pair f := PyTuple (PyArray (integrals f x)) (PyArray (abserrs f x)) in
    cartwright_gen._cdf x zeta mu
      = pair (fun t => cartwright_gen._pdf t zeta mu)
    /\ wrapnorm_gen._cdf x rho mu
      = pair (fun t => wrapnorm_gen._pdf t rho mu)
    /\ wrapcauchy_gen._cdf x rho mu
      = pair (fun t => wrapcauchy_gen._pdf t rho mu)
    /\ vonmises._cdf x kappa mu
      = pair (fun t => vonmises._pdf t kappa mu)
    /\ vonmises_ext_gen._cdf x kappa nu mu
      = pair (fun t => vonmises_ext_gen._pdf t kappa nu mu)
    /\ jonespewsey_gen._cdf x kappa psi mu
      = (if isclose (Rabs psi) 0
         then pair (fun t => _c_jonespewsey kappa psi mu
                             * exp (kappa * cos (t - mu)))
         else pair (fun t => jonespewsey_gen._pdf t kappa psi mu))
    /\ (forall f a, pair f <> PyArray a)
    /\ (forall f v, pair f <> PyFloat v).
Proof.
  intros S x zeta rho kappa psi nu mu pair.
  repeat split; try reflexivity; discriminate.
Qed.

(** ** Inverse Batschelet normalizing constant *)

(** C7: the normalizing constant is the closed form
    [1/(2 pi I0 (1 - I1/I0))] when [lmbd] is close to 1, and otherwise
    [1/(2 pi I0 ((1+lmbd)/(1-lmbd) - (2 lmbd/((1-lmbd) 2 pi I0)) J))]
    with [J] one numerical integral of
    [exp (kappa cos (x - (1-lmbd) sin x / 2))] over [[-pi, pi]]. *)
Theorem c_invbatschelet_formula :
  forall `{Scipy} (kappa lmbd : R),
    _c_invbatschelet kappa lmbd = Spec.invbatschelet_constant kappa lmbd.
Proof.
  intros S kappa lmbd.
  unfold _c_invbatschelet, Spec.invbatschelet_constant,
    Spec.invbatschelet_integral, _A1.
  destruct (isclose lmbd 1); [reflexivity |].
  replace ((1 - lmbd) * 2 * PI * i0 kappa)
    with ((1 - lmbd) * (2 * PI * i0 kappa)) by ring.
  reflexivity.
Qed.

(** ** Jones-Pewsey *)

Lemma cosh_pos (a : R) : 0 < cosh a.
Proof.
  unfold cosh; pose proof (exp_pos a); pose proof (exp_pos (- a)); lra.
Qed.

(** The base of the Jones-Pewsey power is positive, so the float power
    is the real power. *)
Lemma jonespewsey_base_pos (a t : R) : 0 < cosh a + sinh a * cos t.
Proof.
  unfold cosh, sinh.
  pose proof (exp_pos a) as Ha; pose proof (exp_pos (- a)) as Hb.
  pose proof (COS_bound t) as [Hl Hu].
  assert (P1 : 0 <= exp a * (1 + cos t)) by (apply Rmult_le_pos; lra).
  assert (P2 : 0 <= exp (- a) * (1 - cos t)) by (apply Rmult_le_pos; lra).
  destruct (Rle_dec (cos t) 0) as [Hc | Hc].
  - assert (exp (- a) <= exp (- a) * (1 - cos t)) by nra. lra.
  - assert (exp a <= exp a * (1 + cos t)) by nra. lra.
Qed.

Lemma np_power_pos (b e : R) : 0 < b -> np_power b e = Rpower b e.
Proof.
  intros Hb; unfold np_power; destruct (Req_dec_T b 0); [lra | reflexivity].
Qed.

Lemma kernel_jonespewsey_scaled `{Scipy} (x kappa psi mu : R) :
  _kernel_jonespewsey x kappa psi mu
  = Spec.jonespewsey_kernel x kappa psi mu / (2 * PI * cosh (kappa * PI)).
Proof.
  unfold _kernel_jonespewsey, Spec.jonespewsey_kernel.
  rewrite np_power_pos by apply jonespewsey_base_pos; reflexivity.
Qed.

(** For a homogeneous quadrature the constant factor that the code puts
    in its kernel cancels, and the density is the unscaled kernel
    divided by the integral of the unscaled kernel. *)
Lemma jonespewsey_pdf_regimes :
  forall `{Scipy},
    homogeneous_quad_vec ->
    forall x kappa psi mu : R,
      jonespewsey_gen._pdf x kappa psi mu
      = Spec.jonespewsey_density x kappa psi mu.
Proof.
  intros S Hhom x kappa psi mu.
  unfold jonespewsey_gen._pdf, Spec.jonespewsey_density,
    Spec.jonespewsey_regime, Rltb.
  destruct (Rlt_dec kappa 0.001); [reflexivity |].
  destruct (isclose (Rabs psi) 0).
  - unfold Rdiv; ring.
  - unfold _c_jonespewsey.
    set (d := 2 * PI * cosh (kappa * PI)).
    assert (Hd : d <> 0).
    { unfold d; pose proof PI_bounds; pose proof (cosh_pos (kappa * PI)).
      apply Rgt_not_eq; apply Rmult_lt_0_compat; lra. }
    replace (fun t : R => _kernel_jonespewsey t kappa psi mu)
      with (fun t : R => Spec.jonespewsey_kernel t kappa psi mu / d).
    2:{ apply FunctionalExtensionality.functional_extensionality; intros t.
        symmetry; apply kernel_jonespewsey_scaled. }
    rewrite Hhom, kernel_jonespewsey_scaled; fold d.
    set (K := Spec.jonespewsey_kernel x kappa psi mu).
    set (I := fst (quad_vec _ (- PI) PI)).
    unfold Rdiv; rewrite Rinv_mult, Rinv_inv.
    transitivity (K * / I * (/ d * d)); [ring |].
    rewrite Rinv_l by exact Hd; ring.
Qed.

Lemma toy_quad_vec_homogeneous : @homogeneous_quad_vec toy_scipy.
Proof. intros f k a b; simpl; unfold Rdiv; ring. Qed.

Lemma jonespewsey_pdf_regimes_witness :
  @homogeneous_quad_vec toy_scipy
  /\ @jonespewsey_gen._pdf toy_scipy 1 2 0.5 0
     = @Spec.jonespewsey_density toy_scipy 1 2 0.5 0.
Proof.
  split; [exact toy_quad_vec_homogeneous |].
  exact (@jonespewsey_pdf_regimes toy_scipy toy_quad_vec_homogeneous 1 2 0.5 0).
Defined.


Lemma cosh_ge_1 (a : R) : 1 <= cosh a.
Proof.
  unfold cosh.
  pose proof (exp_pos a) as Ha; pose proof (exp_pos (- a)) as Hb.
  assert (E : exp a * exp (- a) = 1).
  { rewrite <- exp_plus, Rplus_opp_r; apply exp_0. }
  assert (0 <= (exp a - exp (- a)) ^ 2) by apply pow2_ge_0.
  nra.
Qed.






(** ** Inverse Batschelet: the implicit transforms *)

Lemma cos_unshift (x : R) : cos (x - 2 * PI) = cos x.
Proof. rewrite <- (cos_shift (x - 2 * PI)); f_equal; ring. Qed.

Lemma Rabs_sin_lt (t : R) : 0 < t -> Rabs (sin t) < t.
Proof.
  intros Ht. pose proof (sin_lt_x t Ht) as Hup.
  pose proof (SIN_bound t) as [Hl Hu].
  apply Rabs_def1; [exact Hup |].
  destruct (Rle_dec t PI) as [Hle | Hgt].
  - pose proof (sin_ge_0 t (Rlt_le _ _ Ht) Hle). lra.
  - pose proof PI_bounds. lra.
Qed.

Lemma Rabs_cos_diff_lt (p q : R) : q < p -> Rabs (cos p - cos q) < p - q.
Proof.
  intros Hlt. rewrite form2.
  set (h := (p - q) / 2). set (m := (p + q) / 2).
  assert (Hh : 0 < h) by (unfold h; lra).
  pose proof (Rabs_sin_lt h Hh) as Hs.
  pose proof (SIN_bound m) as Hm.
  assert (Hm' : Rabs (sin m) <= 1) by (apply Rabs_le; lra).
  replace (-2 * sin h * sin m) with (- (2 * (sin h * sin m))) by ring.
  rewrite Rabs_Ropp, Rabs_mult, Rabs_mult, (Rabs_pos_eq 2) by lra.
  pose proof (Rabs_pos (sin h)). pose proof (Rabs_pos (sin m)).
  replace (p - q) with (2 * h) by (unfold h; field).
  nra.
Qed.

Lemma Rabs_sin_diff_lt (p q : R) : q < p -> Rabs (sin p - sin q) < p - q.
Proof.
  intros Hlt. rewrite form4.
  set (h := (p - q) / 2). set (m := (p + q) / 2).
  assert (Hh : 0 < h) by (unfold h; lra).
  pose proof (Rabs_sin_lt h Hh) as Hs.
  pose proof (COS_bound m) as Hm.
  assert (Hm' : Rabs (cos m) <= 1) by (apply Rabs_le; lra).
  rewrite Rabs_mult, Rabs_mult, (Rabs_pos_eq 2) by lra.
  pose proof (Rabs_pos (sin h)). pose proof (Rabs_pos (cos m)).
  replace (p - q) with (2 * h) by (unfold h; field).
  nra.
Qed.

(** Both transforms are strictly increasing on their parameter range,
    hence injective: a root, when there is one, is unique. *)
Lemma T_nu_increasing (nu p q : R) :
  -1 <= nu <= 1 -> q < p -> T_nu nu q < T_nu nu p.
Proof.
  intros Hnu Hlt. unfold T_nu.
  pose proof (Rabs_cos_diff_lt p q Hlt) as Hc.
  apply Rabs_def2 in Hc. destruct Hc as [Hc1 Hc2].
  set (d := cos p - cos q) in *.
  assert (Hd : nu * d < p - q).
  { destruct (Rle_dec 0 d).
    - assert (nu * d <= 1 * d) by (apply Rmult_le_compat_r; lra). lra.
    - assert (0 <= (nu + 1) * (- d)) by (apply Rmult_le_pos; lra). lra. }
  unfold d in Hd; lra.
Qed.




Lemma T_nu_shift (nu z : R) : T_nu nu (z + 2 * PI) = T_nu nu z + 2 * PI.
Proof. unfold T_nu; rewrite cos_shift; ring. Qed.

Lemma T_nu_unshift (nu z : R) : T_nu nu (z - 2 * PI) = T_nu nu z - 2 * PI.
Proof. unfold T_nu; rewrite cos_unshift; ring. Qed.


(** A root of [T_nu] stays within 2 of its right-hand side. *)
Lemma T_nu_root_near (nu z x : R) :
  -1 <= nu <= 1 -> T_nu nu z = x -> x - 2 <= z <= x + 2.
Proof.
  unfold T_nu; intros Hnu E. pose proof (COS_bound z) as [Hl Hu].
  assert (H1 : 0 <= (1 - nu) * (1 + cos z)) by (apply Rmult_le_pos; lra).
  assert (H2 : 0 <= (1 + nu) * (1 + cos z)) by (apply Rmult_le_pos; lra).
  split; lra.
Qed.

(** ** Inverse Batschelet: arrays of roots *)

Lemma zip_with_zero (g : R -> R -> R) (z x : list R) :
  length z = length x ->
  Forall (fun r => r = 0) (zip_with g z x) ->
  Forall2 (fun zi xi => g zi xi = 0) z x.
Proof.
  revert x; induction z as [|zi z IH]; intros [|xi x] Hlen Hall;
    simpl in *; try discriminate; constructor.
  - inversion Hall; assumption.
  - apply IH; [lia | inversion Hall; assumption].
Qed.

Lemma length_zeros_like (x : list R) : length (zeros_like x) = length x.
Proof. unfold zeros_like; apply length_map. Qed.

Lemma tnu_unfold `{Scipy} (x : list R) (nu : R) :
  _tnu x nu = map wrap_pi (res_x (root (_tnuinv x nu) (zeros_like x))).
Proof. reflexivity. Qed.

Lemma tnu_roots `{Scipy} (x : list R) (nu : R) :
  tnu_converged x nu ->
  Forall2 (fun z xi => T_nu nu z = xi)
          (res_x (root (_tnuinv x nu) (zeros_like x))) x.
Proof.
  intros [Hlen Hres]. rewrite length_zeros_like in Hlen.
  apply zip_with_zero in Hres; [| exact Hlen].
  eapply Forall2_impl; [| exact Hres].
  intros z xi E; unfold T_nu; simpl in E; lra.
Qed.









(** ** Periodicity of the densities *)


Lemma sin_shift_minus (x mu : R) : sin (x + 2 * PI - mu) = sin (x - mu).
Proof. rewrite <- (sin_shift (x - mu)); f_equal; ring. Qed.








(** The concrete implementation converges on the identity transforms
    ([nu = 0], [lmbd = -1]): one unit-slope Newton step is exact. *)
Lemma toy_tnu_converged (x : R) : @tnu_converged toy_scipy [x] 0.
Proof.
  unfold tnu_converged, converged; simpl; split; [reflexivity |].
  repeat constructor; ring.
Qed.

Lemma toy_slmbd_converged (a : R) : @slmbd_converged toy_scipy [a] (-1).
Proof.
  unfold slmbd_converged, converged; simpl; split; [reflexivity |].
  repeat constructor; ring.
Qed.

Lemma toy_tnu_singleton (x : R) :
  exists a, @_tnu toy_scipy [x] 0 = [a].
Proof. eexists; reflexivity. Qed.

(** For other shape parameters the Newton step from 0 lands on
    [x + 2 nu] and on [a]; it is exact where the cosine, respectively
    the sine, of the landing point is that of the initial guess. *)
Lemma toy_tnu_root (x nu : R) :
  res_x (@root toy_scipy (_tnuinv [x] nu) (zeros_like [x])) = [x + 2 * nu].
Proof. simpl; rewrite cos_0; f_equal; ring. Qed.

Lemma toy_tnu_value (x nu : R) :
  @_tnu toy_scipy [x] nu = [wrap_pi (x + 2 * nu)].
Proof. rewrite tnu_unfold, toy_tnu_root; reflexivity. Qed.

Lemma toy_tnu_converged_at (x nu : R) :
  cos (x + 2 * nu) = 1 -> @tnu_converged toy_scipy [x] nu.
Proof.
  intros Hc; unfold tnu_converged, converged; rewrite toy_tnu_root.
  simpl; split; [reflexivity |].
  repeat constructor; rewrite Hc; ring.
Qed.







(** ** Inverse Batschelet: the solver [_tnu] *)

Lemma wrap_pi_equation (nu z x : R) :
  T_nu nu z = x ->
  T_nu nu (wrap_pi z) = x \/ T_nu nu (wrap_pi z) = x - 2 * PI.
Proof.
  intros E; unfold wrap_pi; destruct (Rltb PI z).
  - right; rewrite T_nu_unshift, E; reflexivity.
  - left; exact E.
Qed.

(** The transform fixes the odd multiples of pi. *)
Lemma T_nu_minus_PI (nu : R) : T_nu nu (- PI) = - PI.
Proof. unfold T_nu; rewrite cos_neg, cos_PI; ring. Qed.

Lemma T_nu_PI (nu : R) : T_nu nu PI = PI.
Proof. unfold T_nu; rewrite cos_PI; ring. Qed.

Lemma T_nu_3PI (nu : R) : T_nu nu (3 * PI) = 3 * PI.
Proof.
  replace (3 * PI) with (PI + 2 * PI) by ring.
  rewrite T_nu_shift, T_nu_PI; reflexivity.
Qed.

Lemma T_nu_le_reflect (nu p q : R) :
  -1 <= nu <= 1 -> T_nu nu q <= T_nu nu p -> q <= p.
Proof.
  intros Hnu Hle; destruct (Rle_or_lt q p) as [H | H]; [exact H |].
  pose proof (T_nu_increasing nu q p Hnu H); lra.
Qed.

Lemma T_nu_lt_reflect (nu p q : R) :
  -1 <= nu <= 1 -> T_nu nu q < T_nu nu p -> q < p.
Proof.
  intros Hnu Hlt; destruct (Rlt_or_le q p) as [H | H]; [exact H |].
  destruct H as [H | H].
  - pose proof (T_nu_increasing nu q p Hnu H); lra.
  - subst; lra.
Qed.

Lemma T_nu_nondecreasing (nu p q : R) :
  -1 <= nu <= 1 -> q <= p -> T_nu nu q <= T_nu nu p.
Proof.
  intros Hnu [H | H]; [left; apply T_nu_increasing; assumption |].
  subst; lra.
Qed.

(** One subtraction of 2 pi brings a root into [(-pi, pi]] exactly when
    the angle it solves for lies in [(-pi, 3 pi]]. *)
Lemma wrap_pi_range_iff (nu z x : R) :
  -1 <= nu <= 1 -> T_nu nu z = x ->
  (- PI < wrap_pi z <= PI <-> - PI < x <= 3 * PI).
Proof.
  intros Hnu E; pose proof PI_bounds as HPI; subst x.
  pose proof (T_nu_minus_PI nu) as Em.
  pose proof (T_nu_PI nu) as Ep.
  pose proof (T_nu_3PI nu) as E3.
  unfold wrap_pi, Rltb; destruct (Rlt_dec PI z) as [Hz | Hz]; split.
  - intros [_ Hu].
    pose proof (T_nu_increasing nu z PI Hnu Hz).
    assert (Hz3 : z <= 3 * PI) by lra.
    pose proof (T_nu_nondecreasing nu (3 * PI) z Hnu Hz3).
    lra.
  - intros [_ Hu]; rewrite <- E3 in Hu.
    apply T_nu_le_reflect in Hu; [lra | exact Hnu].
  - intros [Hl _].
    pose proof (T_nu_increasing nu z (- PI) Hnu Hl).
    assert (Hzp : z <= PI) by lra.
    pose proof (T_nu_nondecreasing nu PI z Hnu Hzp).
    lra.
  - intros [Hl _]; rewrite <- Em in Hl.
    apply T_nu_lt_reflect in Hl; [lra | exact Hnu].
Qed.

Lemma wrapped_roots (nu : R) (y x : list R) :
  -1 <= nu <= 1 ->
  Forall2 (fun z xi => T_nu nu z = xi) y x ->
  Forall2 (fun v xi => - PI < v <= PI <-> - PI < xi <= 3 * PI)
          (map wrap_pi y) x
  /\ Forall2 (fun v xi => T_nu nu v = xi \/ T_nu nu v = xi - 2 * PI)
             (map wrap_pi y) x.
Proof.
  intros Hnu Hroots; induction Hroots as [| z xi y x E Hroots IH]; simpl.
  - split; constructor.
  - destruct IH as [IH1 IH2].
    split; constructor; try assumption.
    + apply (wrap_pi_range_iff nu); assumption.
    + apply wrap_pi_equation; exact E.
Qed.

(** C5 (as the code has it): the solver is started at 0 for every
    element, one guess per element, so [_tnu] depends on the root-finder
    only through its answer for the initial guess [zeros_like x]; after
    solving, an element above pi has 2 pi subtracted once.  For [nu] in
    [[-1, 1]] and a converged solve, an element of the result lies in
    [(-pi, pi]] exactly when its angle lies in [(-pi, 3 pi]], and it
    solves the equation for [x] or for [x - 2 pi]. *)
Theorem tnu_starts_at_zero_and_wraps_once :
  forall `{Scipy} (x : list R) (nu : R),
    (forall r,
        (forall f, r f (zeros_like x) = root f (zeros_like x)) ->
        @_tnu (with_root _ r) x nu = _tnu x nu)
    /\ length (zeros_like x) = length x
    /\ Forall (fun g => g = 0) (zeros_like x)
    /\ _tnu x nu
       = map wrap_pi (res_x (root (_tnuinv x nu) (zeros_like x)))
    /\ (-1 <= nu <= 1 ->
        tnu_converged x nu ->
        Forall2 (fun y xi => - PI < y <= PI <-> - PI < xi <= 3 * PI)
                (_tnu x nu) x
        /\ Forall2 (fun y xi => T_nu nu y = xi \/ T_nu nu y = xi - 2 * PI)
                   (_tnu x nu) x).
Proof.
  intros S x nu.
  split; [| split; [| split; [| split]]].
  - intros r Hr; unfold _tnu; simpl; rewrite Hr; reflexivity.
  - apply length_zeros_like.
  - unfold zeros_like; induction x; simpl; constructor; [reflexivity | exact IHx].
  - reflexivity.
  - intros Hnu Hconv; rewrite tnu_unfold.
    apply wrapped_roots; [exact Hnu | apply tnu_roots; exact Hconv].
Qed.

Lemma tnu_starts_at_zero_and_wraps_once_witness :
  (-1 <= 0.5 <= 1)
  /\ @tnu_converged toy_scipy [2 * PI - 1] 0.5
  /\ @_tnu toy_scipy [2 * PI - 1] 0.5 = [2 * PI - 1 + 2 * 0.5 - 2 * PI]
  /\ Forall2 (fun y xi => - PI < y <= PI <-> - PI < xi <= 3 * PI)
             (@_tnu toy_scipy [2 * PI - 1] 0.5) [2 * PI - 1]
  /\ Forall2 (fun y xi => T_nu 0.5 y = xi \/ T_nu 0.5 y = xi - 2 * PI)
             (@_tnu toy_scipy [2 * PI - 1] 0.5) [2 * PI - 1].
Proof.
  pose proof PI_bounds as HPI.
  assert (Hnu : -1 <= 0.5 <= 1) by lra.
  assert (Hc : @tnu_converged toy_scipy [2 * PI - 1] 0.5).
  { apply toy_tnu_converged_at.
    replace (2 * PI - 1 + 2 * 0.5) with (2 * PI) by lra; apply cos_2PI. }
  split; [exact Hnu |]. split; [exact Hc |].
  split.
  - rewrite toy_tnu_value; unfold wrap_pi, Rltb.
    destruct (Rlt_dec PI (2 * PI - 1 + 2 * 0.5)); [reflexivity | lra].
  - exact (proj2 (proj2 (proj2 (proj2
      (@tnu_starts_at_zero_and_wraps_once toy_scipy [2 * PI - 1] 0.5))))
      Hnu Hc).
Defined.

Lemma wrap_pi_small (z : R) : z <= PI -> wrap_pi z = z.
Proof.
  intros Hz; unfold wrap_pi, Rltb; destruct (Rlt_dec PI z); [lra | reflexivity].
Qed.

(** C5 fails as stated: a root-finder that hands back its initial guess
    makes [_tnu [1] nu] return [[0]], so the guess is 0 and not [x = 1];
    for the angle -5 (with [nu = 0]) the converged result is -5, which
    is below [-pi]; and for the angle [3 pi] (with [nu = 1]) a solve
    that stops after one step returns [pi + 2], which is above [pi]. *)
Lemma tnu_guess_and_range_counterexample :
  @_tnu (with_root toy_scipy stalled_root) [1] 0 = [0]
  /\ @tnu_converged toy_scipy [-5] 0
  /\ @_tnu toy_scipy [-5] 0 = [-5]
  /\ ~ (- PI < -5 <= PI)
  /\ @_tnu toy_scipy [3 * PI] 1 = [3 * PI + 2 * 1 - 2 * PI]
  /\ ~ (- PI < 3 * PI + 2 * 1 - 2 * PI <= PI).
Proof.
  pose proof PI_bounds as HPI.
  split; [| split; [| split; [| split; [| split]]]].
  - rewrite tnu_unfold; simpl. rewrite wrap_pi_small by lra; reflexivity.
  - apply toy_tnu_converged.
  - rewrite tnu_unfold; simpl.
    replace (0 - (0 - 0 * (1 + cos 0) - -5)) with (-5) by ring.
    rewrite wrap_pi_small by lra; reflexivity.
  - lra.
  - rewrite toy_tnu_value; unfold wrap_pi, Rltb.
    destruct (Rlt_dec PI (3 * PI + 2 * 1)); [reflexivity | lra].
  - lra.
Qed.

(** ** Inverse Batschelet: solver failures *)

Lemma isclose_0_m1 : isclose 0 (-1) = false.
Proof.
  unfold isclose, atol, rtol; apply Rleb_false_iff.
  replace (0 - -1) with 1 by ring.
  assert (E : Rabs (-1) = 1) by (unfold Rabs; destruct (Rcase_abs (-1)); lra).
  rewrite E, Rabs_R1; lra.
Qed.

(** C6 fails as stated: with a root-finder that does not converge (it
    reports failure and leaves a non-zero residual), the density method
    still returns an ordinary array, computed from the unconverged
    iterate. *)
Lemma nonconvergence_returned_as_density :
  success (@root (with_root toy_scipy stalled_root)
             (_tnuinv [1] 0) (zeros_like [1])) = false
  /\ ~ @tnu_converged (with_root toy_scipy stalled_root) [1] 0
  /\ @inverse_batschelet_gen._pdf (with_root toy_scipy stalled_root)
       [1] 1 0 0
     = [@_c_invbatschelet (with_root toy_scipy stalled_root) 1 0 * exp 1].
Proof.
  pose proof PI_bounds as HPI.
  split; [reflexivity |]. split.
  - intros [_ Hres]; simpl in Hres.
    apply Forall_cons_iff in Hres; destruct Hres as [Hres _]. lra.
  - unfold inverse_batschelet_gen._pdf, _slmbdinv.
    rewrite isclose_0_m1, tnu_unfold; simpl.
    rewrite wrap_pi_small by lra.
    do 3 f_equal.
    replace ((1 - 0) / (1 + 0) * 0 + 2 * 0 / (1 + 0) * 0) with 0 by field.
    rewrite cos_0; ring.
Qed.

(** C6 (as the code has it): the inverse Batschelet density reads only
    the solution array of the solver result; a root-finder returning the
    same arrays with any other success flag gives the same density, and
    nothing is raised. *)
Theorem pdf_ignores_success_flag :
  forall (S : Scipy) (r : (list R -> list R) -> list R -> OptimizeResult)
         (x : list R) (kappa nu lmbd : R),
    (forall f x0, res_x (r f x0) = res_x (@root S f x0)) ->
    @inverse_batschelet_gen._pdf (with_root S r) x kappa nu lmbd
    = @inverse_batschelet_gen._pdf S x kappa nu lmbd.
Proof.
  intros S r x kappa nu lmbd Hr.
  unfold inverse_batschelet_gen._pdf, _slmbdinv, _tnu, _c_invbatschelet, _A1.
  simpl; rewrite !Hr; reflexivity.
Qed.

Lemma pdf_ignores_success_flag_witness :
  (forall f x0, res_x (unflagged_newton_step f x0)
                = res_x (@root toy_scipy f x0))
  /\ success (unflagged_newton_step (_tnuinv [1] 0) (zeros_like [1])) = false
  /\ @inverse_batschelet_gen._pdf (with_root toy_scipy unflagged_newton_step)
       [1] 1 0 0
     = @inverse_batschelet_gen._pdf toy_scipy [1] 1 0 0.
Proof.
  assert (Hr : forall f x0, res_x (unflagged_newton_step f x0)
                            = res_x (@root toy_scipy f x0))
    by (intros; reflexivity).
  split; [exact Hr |]. split; [reflexivity |].
  exact (pdf_ignores_success_flag toy_scipy unflagged_newton_step
           [1] 1 0 0 Hr).
Defined.

(** * Further properties of the code *)

(** ** Cardioid: density and cumulative function *)

Lemma cardioid_argcheck_domain (rho mu : R) :
  cardioid_gen._argcheck rho mu = true ->
  0 <= rho <= 0.5 /\ 0 <= mu <= 2 * PI.
Proof.
  unfold cardioid_gen._argcheck; intros Hv.
  apply andb_true_iff in Hv; destruct Hv as [Hr Hm].
  apply andb_true_iff in Hr; destruct Hr as [Hr1 Hr2].
  apply andb_true_iff in Hm; destruct Hm as [Hm1 Hm2].
  apply Rleb_true_iff in Hr1, Hr2, Hm1, Hm2. lra.
Qed.

Lemma cardioid_argcheck_example : cardioid_gen._argcheck 0.3 1 = true.
Proof.
  pose proof PI_bounds. unfold cardioid_gen._argcheck.
  repeat (apply andb_true_iff; split); apply Rleb_true_iff; lra.
Qed.

(** X1: the closed-form cardioid cumulative function is an
    antiderivative of the cardioid density; it is 0 at 0, 1 at 2 pi, and
    grows by exactly 1 over every period. *)
Theorem cardioid_cdf_antiderivative :
  forall x rho mu : R,
    derivable_pt_lim (fun t => cardioid_gen._cdf t rho mu) x
                     (cardioid_gen._pdf x rho mu)
    /\ cardioid_gen._cdf 0 rho mu = 0
    /\ cardioid_gen._cdf (2 * PI) rho mu = 1
    /\ cardioid_gen._cdf (x + 2 * PI) rho mu = cardioid_gen._cdf x rho mu + 1.
Proof.
  intros x rho mu; pose proof PI_bounds as HPI.
  assert (Hpi : PI <> 0) by lra.
  split; [| split; [| split]].
  - unfold cardioid_gen._cdf, cardioid_gen._pdf.
    assert (H1 : derivable_pt_lim (id - fct_cte mu) x (1 - 0)).
    { apply derivable_pt_lim_minus;
        [apply derivable_pt_lim_id | apply derivable_pt_lim_const]. }
    assert (H2 : derivable_pt_lim (comp sin (id - fct_cte mu)) x
                   (cos ((id - fct_cte mu)%F x) * (1 - 0))).
    { apply derivable_pt_lim_comp; [exact H1 | apply derivable_pt_lim_sin]. }
    assert (H3 : derivable_pt_lim
                   (comp sin (id - fct_cte mu) + fct_cte (sin mu)) x
                   (cos ((id - fct_cte mu)%F x) * (1 - 0) + 0)).
    { apply derivable_pt_lim_plus;
        [exact H2 | apply derivable_pt_lim_const]. }
    pose proof (derivable_pt_lim_scal _ (2 * rho) x _ H3) as H4.
    pose proof (derivable_pt_lim_plus _ _ x _ _
                  (derivable_pt_lim_id x) H4) as H5.
    pose proof (derivable_pt_lim_scal_right _ x _ (/ (2 * PI)) H5) as H6.
    replace ((1 + 2 * rho * cos (x - mu)) / 2 / PI)
      with ((1 + 2 * rho
                 * (cos ((id - fct_cte mu)%F x) * (1 - 0) + 0))
            * / (2 * PI)).
    2:{ unfold minus_fct, id, fct_cte; field; exact Hpi. }
    eapply derivable_pt_lim_ext; [| exact H6].
    intros z; unfold plus_fct, mult_real_fct, comp, minus_fct, id, fct_cte.
    reflexivity.
  - unfold cardioid_gen._cdf.
    replace (0 - mu) with (- mu) by ring. rewrite sin_neg.
    unfold Rdiv; ring.
  - unfold cardioid_gen._cdf.
    replace (2 * PI - mu) with (- mu + 2 * PI) by ring.
    rewrite sin_shift, sin_neg. field; exact Hpi.
  - unfold cardioid_gen._cdf. rewrite sin_shift_minus. field; exact Hpi.
Qed.

(** X2: for validated parameters the cardioid density stays between
    [(1 - 2 rho)/(2 pi)] and [(1 + 2 rho)/(2 pi)]; in particular it is
    never negative. *)
Theorem cardioid_pdf_bounds :
  forall x rho mu : R,
    cardioid_gen._argcheck rho mu = true ->
    (1 - 2 * rho) / (2 * PI) <= cardioid_gen._pdf x rho mu
                             <= (1 + 2 * rho) / (2 * PI)
    /\ 0 <= cardioid_gen._pdf x rho mu.
Proof.
  intros x rho mu Hv; pose proof PI_bounds as HPI.
  apply cardioid_argcheck_domain in Hv; destruct Hv as [Hr _].
  pose proof (COS_bound (x - mu)) as [Hl Hu].
  assert (Hinv : 0 < / (2 * PI)) by (apply Rinv_0_lt_compat; lra).
  assert (E : cardioid_gen._pdf x rho mu
              = (1 + 2 * rho * cos (x - mu)) * / (2 * PI)).
  { unfold cardioid_gen._pdf; field; lra. }
  assert (P1 : 0 <= rho * (1 + cos (x - mu))) by (apply Rmult_le_pos; lra).
  assert (P2 : 0 <= rho * (1 - cos (x - mu))) by (apply Rmult_le_pos; lra).
  rewrite E; unfold Rdiv.
  repeat split.
  - apply Rmult_le_compat_r; lra.
  - apply Rmult_le_compat_r; lra.
  - apply Rmult_le_pos; lra.
Qed.

Lemma cardioid_pdf_bounds_witness :
  cardioid_gen._argcheck 0.3 1 = true
  /\ 0 <= cardioid_gen._pdf 2 0.3 1.
Proof.
  split; [exact cardioid_argcheck_example |].
  exact (proj2 (cardioid_pdf_bounds 2 0.3 1 cardioid_argcheck_example)).
Defined.

(** X3: for validated parameters the cardioid cumulative function is
    non-decreasing on the whole real line. *)
Theorem cardioid_cdf_monotone :
  forall x y rho mu : R,
    cardioid_gen._argcheck rho mu = true ->
    x <= y ->
    cardioid_gen._cdf x rho mu <= cardioid_gen._cdf y rho mu.
Proof.
  intros x y rho mu Hv Hxy; pose proof PI_bounds as HPI.
  apply cardioid_argcheck_domain in Hv; destruct Hv as [Hr _].
  destruct Hxy as [Hlt | ->]; [| lra].
  unfold cardioid_gen._cdf, Rdiv.
  apply Rmult_le_compat_r; [left; apply Rinv_0_lt_compat; lra |].
  assert (Hs : Rabs (sin (y - mu) - sin (x - mu)) < (y - mu) - (x - mu))
    by (apply Rabs_sin_diff_lt; lra).
  apply Rabs_def2 in Hs; destruct Hs as [Hs1 Hs2].
  set (d := sin (y - mu) - sin (x - mu)) in *.
  assert (P : 0 <= rho * (d + (y - x))) by (apply Rmult_le_pos; lra).
  assert (P' : 0 <= (1 - 2 * rho) * (y - x)) by (apply Rmult_le_pos; lra).
  assert (E : sin (y - mu) = d + sin (x - mu)) by (unfold d; ring).
  rewrite E. lra.
Qed.

Lemma cardioid_cdf_monotone_witness :
  cardioid_gen._argcheck 0.3 1 = true /\ 0 <= 2
  /\ cardioid_gen._cdf 0 0.3 1 <= cardioid_gen._cdf 2 0.3 1.
Proof.
  assert (H02 : 0 <= 2) by lra.
  split; [exact cardioid_argcheck_example |]. split; [exact H02 |].
  exact (cardioid_cdf_monotone 0 2 0.3 1 cardioid_argcheck_example H02).
Defined.

(** ** Wrapped Cauchy, wrapped normal, Cartwright and von Mises *)

Lemma div_le_cross (a b c d : R) :
  0 < b -> 0 < d -> a * d <= c * b -> a / b <= c / d.
Proof.
  intros Hb Hd H.
  replace (a / b) with (a * d * / (b * d)) by (field; lra).
  replace (c / d) with (c * b * / (b * d)) by (field; lra).
  apply Rmult_le_compat_r; [| exact H].
  left; apply Rinv_0_lt_compat; apply Rmult_lt_0_compat; assumption.
Qed.

(** X4: for [0 < rho <= 0.9], away from the degenerate concentration
    [rho = 1] where the denominator cancels, the wrapped Cauchy density
    lies between [(1 - rho)/(2 pi (1 + rho))] and
    [(1 + rho)/(2 pi (1 - rho))], so it is strictly positive and bounded
    at every angle. *)
Theorem wrapcauchy_pdf_bounds :
  forall x rho mu : R,
    0 < rho <= 0.9 ->
    (1 - rho) / (2 * PI * (1 + rho)) <= wrapcauchy_gen._pdf x rho mu
      <= (1 + rho) / (2 * PI * (1 - rho))
    /\ 0 < wrapcauchy_gen._pdf x rho mu.
Proof.
  intros x rho mu Hr9; pose proof PI_bounds as HPI.
  assert (Hr : 0 < rho < 1) by lra.
  pose proof (COS_bound (x - mu)) as [Hl Hu].
  unfold wrapcauchy_gen._pdf.
  set (c := cos (x - mu)) in *.
  set (D := 1 + rho ^ 2 - 2 * rho * c).
  assert (Q1 : 0 <= rho * (1 + c)) by (apply Rmult_le_pos; lra).
  assert (Q2 : 0 <= rho * (1 - c)) by (apply Rmult_le_pos; lra).
  assert (HD1 : (1 - rho) ^ 2 <= D) by (unfold D; nra).
  assert (HD2 : D <= (1 + rho) ^ 2) by (unfold D; nra).
  assert (HDpos : 0 < D) by nra.
  assert (Hlow : (1 - rho) / (2 * PI * (1 + rho))
                 <= (1 - rho ^ 2) / (2 * PI * D)).
  { apply div_le_cross; [nra | nra |].
    assert (0 <= (2 * PI * (1 - rho)) * ((1 + rho) ^ 2 - D))
      by (apply Rmult_le_pos; nra).
    nra. }
  assert (Hupp : (1 - rho ^ 2) / (2 * PI * D)
                 <= (1 + rho) / (2 * PI * (1 - rho))).
  { apply div_le_cross; [nra | nra |].
    assert (0 <= (2 * PI * (1 + rho)) * (D - (1 - rho) ^ 2))
      by (apply Rmult_le_pos; nra).
    nra. }
  split; [split; assumption |].
  apply Rlt_le_trans with (2 := Hlow).
  apply Rdiv_lt_0_compat; nra.
Qed.

Lemma wrapcauchy_pdf_bounds_witness :
  0 < 0.5 <= 0.9
  /\ (1 - 0.5) / (2 * PI * (1 + 0.5)) <= wrapcauchy_gen._pdf 2 0.5 1
       <= (1 + 0.5) / (2 * PI * (1 - 0.5))
  /\ 0 < wrapcauchy_gen._pdf 2 0.5 1.
Proof.
  assert (Hr : 0 < 0.5 <= 0.9) by lra.
  split; [exact Hr |].
  exact (wrapcauchy_pdf_bounds 2 0.5 1 Hr).
Defined.

(** X5: the validator admits [rho = 1], and there the wrapped Cauchy
    density is 0 at every angle whose offset from [mu] is not a multiple
    of the period (where the quotient is well defined). *)
Theorem wrapcauchy_rho_one_vanishes :
  forall x mu : R,
    0 <= mu <= 2 * PI ->
    cos (x - mu) <> 1 ->
    wrapcauchy_gen._argcheck 1 mu = true
    /\ 2 * PI * (1 + 1 ^ 2 - 2 * 1 * cos (x - mu)) <> 0
    /\ wrapcauchy_gen._pdf x 1 mu = 0.
Proof.
  intros x mu Hmu Hc; pose proof PI_bounds as HPI.
  split; [| split].
  - unfold wrapcauchy_gen._argcheck.
    repeat (apply andb_true_iff; split);
      try (apply Rleb_true_iff; lra); apply Rltb_true_iff; lra.
  - intros E. apply Hc.
    assert (E' : PI * (1 - cos (x - mu)) = 0) by lra.
    apply Rmult_integral in E'; destruct E'; lra.
  - unfold wrapcauchy_gen._pdf.
    replace (1 - 1 ^ 2) with 0 by ring. unfold Rdiv; ring.
Qed.

Lemma wrapcauchy_rho_one_vanishes_witness :
  0 <= 0 <= 2 * PI /\ cos (PI - 0) <> 1
  /\ wrapcauchy_gen._pdf PI 1 0 = 0.
Proof.
  assert (Hmu : 0 <= 0 <= 2 * PI) by (pose proof PI_bounds; lra).
  assert (Hc : cos (PI - 0) <> 1) by (rewrite Rminus_0_r, cos_PI; lra).
  split; [exact Hmu |]. split; [exact Hc |].
  exact (proj2 (proj2 (wrapcauchy_rho_one_vanishes PI 0 Hmu Hc))).
Defined.

Lemma cos_nat_PI (p : nat) : cos (INR p * PI) = (-1) ^ p.
Proof.
  induction p as [| p IH].
  - simpl; rewrite Rmult_0_l; apply cos_0.
  - rewrite S_INR.
    replace ((INR p + 1) * PI) with (INR p * PI + PI) by ring.
    rewrite neg_cos, IH; simpl; ring.
Qed.

(** X6: the validator admits [rho = 1], and there the 29-term series
    gives the wrapped normal density the negative value [-1/(2 pi)] at
    the angle opposite to [mu]: the density is not non-negative on the
    whole validated domain. *)
Theorem wrapnorm_rho_one_negative :
  forall mu : R,
    0 <= mu <= 2 * PI ->
    wrapnorm_gen._argcheck 1 mu = true
    /\ wrapnorm_gen._pdf (mu + PI) 1 mu = - 1 / (2 * PI)
    /\ wrapnorm_gen._pdf (mu + PI) 1 mu < 0.
Proof.
  intros mu Hmu; pose proof PI_bounds as HPI.
  assert (E : wrapnorm_gen._pdf (mu + PI) 1 mu = - 1 / (2 * PI)).
  { unfold wrapnorm_gen._pdf.
    rewrite (map_ext _ (fun p : nat => (-1) ^ p)).
    2:{ intros p. rewrite pow1.
        replace (mu + PI - mu) with PI by ring.
        rewrite cos_nat_PI; ring. }
    unfold range, np_sum; simpl.
    f_equal; ring. }
  split; [| split; [exact E |]].
  - unfold wrapnorm_gen._argcheck.
    repeat (apply andb_true_iff; split);
      try (apply Rleb_true_iff; lra); apply Rltb_true_iff; lra.
  - rewrite E. unfold Rdiv.
    assert (0 < / (2 * PI)) by (apply Rinv_0_lt_compat; lra). lra.
Qed.

Lemma wrapnorm_rho_one_negative_witness :
  0 <= 1 <= 2 * PI /\ wrapnorm_gen._pdf (1 + PI) 1 1 < 0.
Proof.
  assert (Hmu : 0 <= 1 <= 2 * PI) by (pose proof PI_bounds; lra).
  split; [exact Hmu |].
  exact (proj2 (proj2 (wrapnorm_rho_one_negative 1 Hmu))).
Defined.

(** X7: for [zeta >= 0.05], where the powers of 2 and the Gamma values
    of the constant stay moderate, the Cartwright density is exactly 0
    at the angle opposite to [mu], where the base [1 + cos (x - mu)] of
    the power vanishes. *)
Theorem cartwright_pdf_zero_opposite_mu :
  forall `{Scipy} (zeta mu : R),
    0.05 <= zeta ->
    cartwright_gen._pdf (mu + PI) zeta mu = 0.
Proof.
  intros S zeta mu Hz5; unfold cartwright_gen._pdf.
  assert (Hz : 0 < zeta) by lra.
  replace (mu + PI - mu) with PI by ring. rewrite cos_PI.
  replace (1 + -1) with 0 by ring.
  assert (E : np_power 0 (1 / zeta) = 0).
  { unfold np_power. destruct (Req_dec_T 0 0) as [_ | Hn]; [| lra].
    destruct (Req_dec_T (1 / zeta) 0) as [Hz0 | _]; [| reflexivity].
    assert (0 < 1 / zeta) by (apply Rdiv_lt_0_compat; lra). lra. }
  rewrite E; unfold Rdiv; ring.
Qed.

Lemma cartwright_pdf_zero_opposite_mu_witness :
  0.05 <= 2 /\ @cartwright_gen._pdf toy_scipy (1 + PI) 2 1 = 0.
Proof.
  assert (Hz : 0.05 <= 2) by lra.
  split; [exact Hz |].
  exact (@cartwright_pdf_zero_opposite_mu toy_scipy 2 1 Hz).
Defined.

(** X8: when the Bessel value [i0 kappa] is positive and
    [0 <= kappa <= 100], a range in which neither the exponential nor
    the quotient leaves the floating range, the von Mises density is
    positive everywhere and largest at [x = mu]. *)
Theorem vonmises_pdf_mode_at_mu :
  forall `{Scipy} (x kappa mu : R),
    0 <= kappa <= 100 -> 0 < i0 kappa ->
    0 < vonmises._pdf x kappa mu <= vonmises._pdf mu kappa mu.
Proof.
  intros S x kappa mu [Hk _] Hi; pose proof PI_bounds as HPI.
  unfold vonmises._pdf.
  assert (Hden : 0 < / (2 * PI * i0 kappa)).
  { apply Rinv_0_lt_compat; apply Rmult_lt_0_compat; lra. }
  split.
  - apply Rmult_lt_0_compat; [apply exp_pos | exact Hden].
  - unfold Rdiv; apply Rmult_le_compat_r; [lra |].
    replace (mu - mu) with 0 by ring. rewrite cos_0.
    pose proof (COS_bound (x - mu)) as [_ Hu].
    assert (Hle : kappa * cos (x - mu) <= kappa * 1)
      by (apply Rmult_le_compat_l; lra).
    destruct Hle as [Hlt | ->]; [left; apply exp_increasing; exact Hlt | lra].
Qed.

Lemma vonmises_pdf_mode_at_mu_witness :
  0 <= 2 <= 100 /\ 0 < @i0 toy_scipy 2
  /\ 0 < @vonmises._pdf toy_scipy 3 2 1 <= @vonmises._pdf toy_scipy 1 2 1.
Proof.
  assert (Hk : 0 <= 2 <= 100) by lra.
  assert (Hi : 0 < @i0 toy_scipy 2) by (simpl; lra).
  split; [exact Hk |]. split; [exact Hi |].
  exact (@vonmises_pdf_mode_at_mu toy_scipy 3 2 1 Hk Hi).
Defined.

(** ** Symmetry and the skewed extension *)

(** X9: each density of the symmetric families is symmetric about its
    location parameter: the values at [mu + t] and [mu - t] agree. *)
Theorem symmetric_densities_about_mu :
  forall `{Scipy} (t rho zeta kappa psi nu mu : R),
    cardioid_gen._pdf (mu + t) rho mu = cardioid_gen._pdf (mu - t) rho mu
    /\ cartwright_gen._pdf (mu + t) zeta mu
       = cartwright_gen._pdf (mu - t) zeta mu
    /\ wrapnorm_gen._pdf (mu + t) rho mu = wrapnorm_gen._pdf (mu - t) rho mu
    /\ wrapcauchy_gen._pdf (mu + t) rho mu
       = wrapcauchy_gen._pdf (mu - t) rho mu
    /\ vonmises._pdf (mu + t) kappa mu = vonmises._pdf (mu - t) kappa mu
    /\ jonespewsey_gen._pdf (mu + t) kappa psi mu
       = jonespewsey_gen._pdf (mu - t) kappa psi mu
    /\ vonmises_ext_gen._pdf (mu + t) kappa nu mu
       = vonmises_ext_gen._pdf (mu - t) kappa nu mu.
Proof.
  intros S t rho zeta kappa psi nu mu.
  assert (Ep : mu + t - mu = t) by ring.
  assert (Em : mu - t - mu = - t) by ring.
  unfold cardioid_gen._pdf, cartwright_gen._pdf, wrapnorm_gen._pdf,
    wrapcauchy_gen._pdf, vonmises._pdf, jonespewsey_gen._pdf,
    _kernel_jonespewsey, vonmises_ext_gen._pdf, _kernel_vmext.
  rewrite Ep, Em, sin_neg, cos_neg.
  repeat split; try reflexivity.
  - do 3 f_equal. unfold np_sum; f_equal.
    apply map_ext; intros p; f_equal.
    replace (INR p * - t) with (- (INR p * t)) by ring.
    symmetry; apply cos_neg.
  - do 3 f_equal.
    replace (- t + nu * - sin t) with (- (t + nu * sin t)) by ring.
    symmetry; apply cos_neg.
Qed.

(** X10: the sine-skewed density is the Jones-Pewsey density at
    location 0 multiplied by the skewing factor [1 + lmda sin x], in
    each of its three branches. *)
Theorem sineskewed_is_skewed_jonespewsey :
  forall `{Scipy} (x kappa psi lmda : R),
    jonespewsey_sineskewed_gen._pdf x kappa psi lmda
    = (1 + lmda * sin x) * jonespewsey_gen._pdf x kappa psi 0.
Proof.
  intros S x kappa psi lmda.
  unfold jonespewsey_sineskewed_gen._pdf, jonespewsey_gen._pdf.
  destruct (Rltb kappa 0.001); [ring |].
  destruct (isclose (Rabs psi) 0).
  - rewrite Rminus_0_r; ring.
  - cbv beta zeta. unfold _c_jonespewsey, _kernel_jonespewsey.
    replace (fun x0 : R =>
               np_power (cosh (kappa * psi)
                         + sinh (kappa * psi) * cos (x0 - 0)) (1 / psi)
               / (2 * PI * cosh (kappa * PI)))
      with (fun x0 : R =>
               np_power (cosh (kappa * psi)
                         + sinh (kappa * psi) * cos x0) (1 / psi)
               / (2 * PI * cosh (kappa * PI))).
    2:{ apply FunctionalExtensionality.functional_extensionality; intros z.
        rewrite Rminus_0_r; reflexivity. }
    rewrite Rminus_0_r. unfold Rdiv; ring.
Qed.

(** X11: reflecting the angle reverses the direction of the skew: the
    sine-skewed density at [- x] with skewness [lmda] is the density at
    [x] with skewness [- lmda]. *)
Theorem sineskewed_reflection :
  forall `{Scipy} (x kappa psi lmda : R),
    jonespewsey_sineskewed_gen._pdf (- x) kappa psi lmda
    = jonespewsey_sineskewed_gen._pdf x kappa psi (- lmda).
Proof.
  intros S x kappa psi lmda.
  unfold jonespewsey_sineskewed_gen._pdf; cbv beta zeta.
  rewrite sin_neg, cos_neg.
  destruct (Rltb kappa 0.001); [ring |].
  destruct (isclose (Rabs psi) 0); unfold Rdiv; ring.
Qed.

Lemma jonespewsey_kernel_pos (x kappa psi mu : R) :
  0 < _kernel_jonespewsey x kappa psi mu.
Proof.
  pose proof PI_bounds as HPI. unfold _kernel_jonespewsey.
  rewrite np_power_pos by apply jonespewsey_base_pos.
  apply Rdiv_lt_0_compat; [apply exp_pos |].
  pose proof (cosh_pos (kappa * PI)). apply Rmult_lt_0_compat; lra.
Qed.

(** X12: for moderate shapes, [0 <= kappa <= 100], [psi <> 0] and
    [|kappa psi| <= 10], where the hyperbolic functions neither cancel
    nor leave the floating range, the Jones-Pewsey kernel is strictly
    positive at every angle; hence the density is positive in every
    branch as soon as the Bessel value and the numerical integral of the
    kernel are. *)
Theorem jonespewsey_pdf_positive :
  forall `{Scipy} (x kappa psi mu : R),
    0 <= kappa <= 100 ->
    psi <> 0 ->
    Rabs (kappa * psi) <= 10 ->
    0 < i0 kappa ->
    0 < _c_jonespewsey kappa psi mu ->
    0 < _kernel_jonespewsey x kappa psi mu
    /\ 0 < jonespewsey_gen._pdf x kappa psi mu.
Proof.
  intros S x kappa psi mu _ _ _ Hi Hc; pose proof PI_bounds as HPI.
  split; [apply jonespewsey_kernel_pos |].
  unfold jonespewsey_gen._pdf.
  destruct (Rltb kappa 0.001).
  - apply Rdiv_lt_0_compat; lra.
  - destruct (isclose (Rabs psi) 0).
    + apply Rmult_lt_0_compat; [| apply exp_pos].
      apply Rdiv_lt_0_compat; [lra |].
      apply Rmult_lt_0_compat; lra.
    + apply Rdiv_lt_0_compat; [apply jonespewsey_kernel_pos | exact Hc].
Qed.

Lemma jonespewsey_pdf_positive_witness :
  0 <= 2 <= 100
  /\ 0.5 <> 0
  /\ Rabs (2 * 0.5) <= 10
  /\ 0 < @i0 toy_scipy 2
  /\ 0 < @_c_jonespewsey toy_scipy 2 0.5 0
  /\ 0 < @jonespewsey_gen._pdf toy_scipy 1 2 0.5 0.
Proof.
  assert (Hk : 0 <= 2 <= 100) by lra.
  assert (Hp : 0.5 <> 0) by lra.
  assert (Hkp : Rabs (2 * 0.5) <= 10).
  { rewrite Rabs_pos_eq; lra. }
  assert (Hi : 0 < @i0 toy_scipy 2) by (simpl; lra).
  assert (Hc : 0 < @_c_jonespewsey toy_scipy 2 0.5 0).
  { unfold _c_jonespewsey; simpl.
    apply Rmult_lt_0_compat;
      [pose proof PI_bounds; lra | apply jonespewsey_kernel_pos]. }
  split; [exact Hk |]. split; [exact Hp |]. split; [exact Hkp |].
  split; [exact Hi |]. split; [exact Hc |].
  exact (proj2 (@jonespewsey_pdf_positive toy_scipy 1 2 0.5 0
                  Hk Hp Hkp Hi Hc)).
Defined.

(** ** Inverse Batschelet: shapes and special cases *)

Lemma Forall2_eq_list (a b : list R) :
  Forall2 (fun u v => u = v) a b -> a = b.
Proof.
  intros H; induction H as [| u v a b E H IH]; [reflexivity |].
  rewrite E, IH; reflexivity.
Qed.

(** X13: for [nu = 0] the transform is the identity, so a converged
    [_tnu] returns the angles themselves, each reduced by [2 pi] when it
    exceeds [pi]. *)
Theorem tnu_identity_at_nu_zero :
  forall `{Scipy} (x : list R),
    tnu_converged x 0 ->
    _tnu x 0 = map wrap_pi x.
Proof.
  intros S x Hconv. rewrite tnu_unfold; f_equal.
  apply Forall2_eq_list.
  eapply Forall2_impl; [| exact (tnu_roots x 0 Hconv)].
  intros z xi E; unfold T_nu in E; lra.
Qed.

Lemma tnu_identity_at_nu_zero_witness :
  @tnu_converged toy_scipy [4] 0
  /\ @_tnu toy_scipy [4] 0 = map wrap_pi [4].
Proof.
  split; [apply toy_tnu_converged |].
  exact (@tnu_identity_at_nu_zero toy_scipy [4] (toy_tnu_converged 4)).
Defined.

Lemma isclose_refl (a : R) : isclose a a = true.
Proof.
  unfold isclose, atol, rtol; apply Rleb_true_iff.
  replace (a - a) with 0 by ring. rewrite Rabs_R0.
  pose proof (Rabs_pos a). lra.
Qed.

(** X15: when [lmbd] is close to -1 the second transform is skipped
    ([_slmbdinv] returns its argument, whatever the root-finder) and the
    density is the normalizing constant times the flat-topped von Mises
    kernel with [nu = -1] and [mu = 0], evaluated at the angles
    transformed by [_tnu]. *)
Theorem inverse_batschelet_identity_branch :
  forall `{Scipy} (x : list R) (kappa nu lmbd : R),
    isclose lmbd (-1) = true ->
    (forall a, _slmbdinv a lmbd = a)
    /\ inverse_batschelet_gen._pdf x kappa nu lmbd
       = map (fun a => _c_invbatschelet kappa lmbd
                       * _kernel_vmext a kappa (-1) 0)
             (_tnu x nu).
Proof.
  intros S x kappa nu lmbd Hc. split.
  - intros a; unfold _slmbdinv; rewrite Hc; reflexivity.
  - unfold inverse_batschelet_gen._pdf, _slmbdinv; rewrite Hc.
    apply map_ext; intros a; unfold _kernel_vmext.
    rewrite Rminus_0_r.
    replace (a + -1 * sin a) with (a - sin a) by ring. reflexivity.
Qed.

Lemma inverse_batschelet_identity_branch_witness :
  isclose (-1) (-1) = true
  /\ @_slmbdinv toy_scipy [2] (-1) = [2].
Proof.
  split; [apply isclose_refl |].
  exact (proj1 (@inverse_batschelet_identity_branch toy_scipy [1] 1 0 (-1)
                  (isclose_refl (-1))) [2]).
Defined.

(** ** The validators *)

(** X16: each argument validator accepts exactly its parameter domain;
    the three Jones-Pewsey validators put no restriction on [psi]. *)
Theorem argcheck_domains :
  forall rho zeta kappa psi nu mu lmbd : R,
    (cardioid_gen._argcheck rho mu = true
       <-> 0 <= rho <= 0.5 /\ 0 <= mu <= 2 * PI)
    /\ (cartwright_gen._argcheck zeta mu = true
          <-> 0 < zeta /\ 0 <= mu <= 2 * PI)
    /\ (wrapnorm_gen._argcheck rho mu = true
          <-> 0 < rho <= 1 /\ 0 <= mu <= 2 * PI)
    /\ (wrapcauchy_gen._argcheck rho mu = true
          <-> 0 < rho <= 1 /\ 0 <= mu <= 2 * PI)
    /\ (vonmises._argcheck kappa mu = true
          <-> 0 < kappa /\ 0 <= mu <= 2 * PI)
    /\ (jonespewsey_gen._argcheck kappa psi mu = true
          <-> 0 <= kappa /\ 0 <= mu <= 2 * PI)
    /\ (vonmises_ext_gen._argcheck kappa nu mu = true
          <-> 0 <= kappa /\ -1 <= nu <= 1 /\ 0 <= mu <= 2 * PI)
    /\ (jonespewsey_sineskewed_gen._argcheck kappa psi lmbd = true
          <-> 0 <= kappa /\ -1 <= lmbd <= 1)
    /\ (jonespewsey_asymext_gen._argcheck kappa psi nu = true
          <-> 0 <= kappa /\ 0 <= nu < 1)
    /\ (inverse_batschelet_gen._argcheck kappa nu lmbd = true
          <-> 0 <= kappa /\ -1 <= nu <= 1 /\ -1 <= lmbd <= 1).
Proof.
  intros rho zeta kappa psi nu mu lmbd.
  unfold cardioid_gen._argcheck, cartwright_gen._argcheck,
    wrapnorm_gen._argcheck, wrapcauchy_gen._argcheck, vonmises._argcheck,
    jonespewsey_gen._argcheck, vonmises_ext_gen._argcheck,
    jonespewsey_sineskewed_gen._argcheck, jonespewsey_asymext_gen._argcheck,
    inverse_batschelet_gen._argcheck.
  rewrite !andb_true_iff, !Rleb_true_iff, !Rltb_true_iff.
  repeat split; intros; try tauto; try lra.
Qed.

(** ** Numerically normalised densities *)

(** X17: with [nu = 0] the flat-topped von Mises density is the von
    Mises kernel [exp (kappa cos (x - mu))] divided by its numerical
    integral over [[-pi, pi]]. *)
Theorem vonmises_ext_at_nu_zero :
  forall `{Scipy} (x kappa mu : R),
    vonmises_ext_gen._pdf x kappa 0 mu
    = exp (kappa * cos (x - mu))
      / fst (quad_vec (fun t => exp (kappa * cos (t - mu))) (- PI) PI).
Proof.
  intros S x kappa mu.
  unfold vonmises_ext_gen._pdf, _c_vmext, _kernel_vmext.
  replace (fun t : R => exp (kappa * cos (t - mu + 0 * sin (t - mu))))
    with (fun t : R => exp (kappa * cos (t - mu))).
  2:{ apply FunctionalExtensionality.functional_extensionality; intros t.
      do 3 f_equal; ring. }
  replace (x - mu + 0 * sin (x - mu)) with (x - mu) by ring.
  unfold Rdiv; ring.
Qed.





